(** * Remote-to-home mirror controller (fluvio-spu, mirroring/remote/controller.rs)

    Shallow embedding of [MirrorRemoteToHomeController]: the shared metrics
    record is threaded as explicit state, the socket sink and the timers are
    recorded as a trace of actions, and errors ([anyhow::Result]) are an
    outcome of a small state/writer/error monad.  Loops that wait on the
    environment (connect attempts, inbound frames, offset events, registry
    lookups) consume a finite list of environment answers; when the list is
    exhausted the run is [Pending]: the task is still suspended, it has
    neither returned nor failed. *)

From Stdlib Require Import ZArith String List Bool Lia Sorting.Sorted Sorting.Permutation.
Import ListNotations.
Open Scope Z_scope.

(** ** Data model *)

(** [fluvio_protocol::record::Offset] is an [i64]. *)
Definition Offset := Z.

(** [fetch_add] on an [AtomicU64] wraps around at 2^64. *)
Definition u64_incr (x : Z) : Z := (x + 1) mod 2 ^ 64.

Record MirrorControllerMetrics := {
  loop_count : Z;
  connect_count : Z;
  connect_failure : Z;
  home_leo : Offset
}.

(** [MirrorControllerState::new]: counters at zero, [home_leo = -1]. *)
Definition metrics_new : MirrorControllerMetrics :=
  {| loop_count := 0; connect_count := 0; connect_failure := 0; home_leo := -1 |}.

Inductive Isolation := ReadCommitted | ReadUncommitted.

Record RemotePartitionConfig := {
  home_cluster : string;
  home_spu_id : Z;
  home_spu_endpoint : string
}.

Record Home := {
  home_id : string;
  remote_id : string
}.

Inductive MirrorType :=
| MirrorHome (h : Home)
| MirrorRemote (name : string).

(** The local mirror store: cluster name -> mirror spec. *)
Definition MirrorStore := list (string * MirrorType).

(** A file slice of the leader's log: position and length in the file. *)
Record AsyncFileSlice := {
  slice_pos : Z;
  slice_len : Z
}.

(** Records of a [FilePartitionSyncRequest]; [Default] is empty. *)
Inductive FileRecordSet :=
| RecordsEmpty
| RecordsSlice (s : AsyncFileSlice).

Record FilePartitionSyncRequest := {
  sync_leo : Offset;
  sync_hw : Offset;
  sync_records : FileRecordSet
}.

Record ReplicaOffsets := { end_leo : Offset; end_hw : Offset }.

(** Result of [leader.read_records]. *)
Record ReplicaSlice := {
  slice_end : ReplicaOffsets;
  file_slice : option AsyncFileSlice
}.

Inductive result (A : Type) :=
| Ok (a : A)
| Err (msg : string).
Arguments Ok {A} a.
Arguments Err {A} msg.

(** The part of the shared leader state the controller reads at a given
    moment: [leo], [hw] ([as_offset]) and the bounded read of the log
    ([read_records start max_bytes isolation]). *)
Record LeaderState := {
  leader_leo : Offset;
  leader_hw : Offset;
  read_records : Offset -> Z -> Isolation -> result ReplicaSlice
}.

Record UpdateHomeOffsetRequest := { req_leo : Offset }.

Inductive HomeMirrorRequest :=
| UpdateHomeOffset (req : UpdateHomeOffsetRequest).

(** Outbound frames written on the sink. *)
Inductive Outbound :=
| StartMirrorRequest (remote_cluster_id remote_replica : string)
| FilePartitionSync (client_id : string) (req : FilePartitionSyncRequest).

(** Observable effects: frames sent, connect attempts, sleeps. *)
Inductive Action :=
| ASend (m : Outbound)
| AConnect (endpoint : string)
| ABackoff
| ASleep (secs : Z).

(** The static part of the controller. *)
Record Controller := {
  leader_id : string;
  remote_config : RemotePartitionConfig;
  max_bytes : Z;
  isolation : Isolation
}.

(** ** The controller monad *)

Inductive outcome (A : Type) :=
| Done (a : A)
| Fail (msg : string)
| Pending.
Arguments Done {A} a.
Arguments Fail {A} msg.
Arguments Pending {A}.

Definition ctl (A : Type) :=
  MirrorControllerMetrics -> outcome A * MirrorControllerMetrics * list Action.

Definition ret {A} (a : A) : ctl A := fun st => (Done a, st, []).

Definition bind {A B} (m : ctl A) (k : A -> ctl B) : ctl B :=
  fun st =>
    match m st with
    | (Done a, st1, w1) =>
        let '(o, st2, w2) := k a st1 in (o, st2, w1 ++ w2)
    | (Fail e, st1, w1) => (Fail e, st1, w1)
    | (Pending, st1, w1) => (Pending, st1, w1)
    end.

Notation "x <- m ;; k" := (bind m (fun x => k))
  (at level 61, m at next level, right associativity).
Notation "m ;;; k" := (bind m (fun _ => k))
  (at level 61, right associativity).

Definition fail {A} (e : string) : ctl A := fun st => (Fail e, st, []).
Definition pending {A} : ctl A := fun st => (Pending, st, []).
Definition emit (a : Action) : ctl unit := fun st => (Done tt, st, [a]).
Definition modify (f : MirrorControllerMetrics -> MirrorControllerMetrics) : ctl unit :=
  fun st => (Done tt, f st, []).
Definition gets {A} (f : MirrorControllerMetrics -> A) : ctl A :=
  fun st => (Done (f st), st, []).

(** [?] on a [Result]. *)
Definition lift {A} (r : result A) : ctl A :=
  match r with Ok a => ret a | Err e => fail e end.

(** Catch a failure as a [Result] value (the [if let Err(err) = ...]). *)
Definition try_ctl {A} (m : ctl A) : ctl (result A) :=
  fun st =>
    match m st with
    | (Done a, st1, w) => (Done (Ok a), st1, w)
    | (Fail e, st1, w) => (Done (Err e), st1, w)
    | (Pending, st1, w) => (Pending, st1, w)
    end.

(** ** Metrics operations *)

Definition m_set_home_leo (leo : Offset) (m : MirrorControllerMetrics) : MirrorControllerMetrics :=
  {| loop_count := loop_count m; connect_count := connect_count m;
     connect_failure := connect_failure m; home_leo := leo |}.

Definition m_incr_loop (m : MirrorControllerMetrics) : MirrorControllerMetrics :=
  {| loop_count := u64_incr (loop_count m); connect_count := connect_count m;
     connect_failure := connect_failure m; home_leo := home_leo m |}.

Definition m_incr_conn (m : MirrorControllerMetrics) : MirrorControllerMetrics :=
  {| loop_count := loop_count m; connect_count := u64_incr (connect_count m);
     connect_failure := connect_failure m; home_leo := home_leo m |}.

Definition m_incr_failure (m : MirrorControllerMetrics) : MirrorControllerMetrics :=
  {| loop_count := loop_count m; connect_count := connect_count m;
     connect_failure := u64_incr (connect_failure m); home_leo := home_leo m |}.

Definition update_home_leo (leo : Offset) : ctl unit := modify (m_set_home_leo leo).
Definition get_home_leo : ctl Offset := gets home_leo.
Definition increase_loop_count : ctl unit := modify m_incr_loop.
Definition increase_conn_count : ctl unit := modify m_incr_conn.
Definition increase_conn_failure : ctl unit := modify m_incr_failure.

(** ** Controller operations *)

Section Controller.

Variable c : Controller.

(** [backoff_and_wait]: [backoff.wait()], sleep, then count a failure. *)
Definition backoff_and_wait : ctl unit :=
  emit ABackoff ;;; increase_conn_failure.

Definition update_from_home_error : string :=
  "home's leo > leader's leo this should not happen, this is error".

(** [update_from_home] *)
Definition update_from_home (leader : LeaderState) (req : UpdateHomeOffsetRequest)
  : ctl bool :=
  let leader_leo := leader_leo leader in
  old_home_leo <- get_home_leo ;;
  let new_home_leo := req_leo req in
  (if old_home_leo <? 0 then update_home_leo new_home_leo else ret tt) ;;;
  match Z.compare new_home_leo leader_leo with
  | Gt => fail update_from_home_error
  | Lt => update_home_leo new_home_leo ;;; ret true
  | Eq => ret false
  end.

Definition home_ahead_error : string :=
  "leader has more records than home, this should not happen".

(** [generate_home_sync] *)
Definition generate_home_sync (leader : LeaderState) (home_leo : Offset)
  : ctl (option FilePartitionSyncRequest) :=
  let leo := leader_leo leader in
  let hw := leader_hw leader in
  if leo =? home_leo then ret None
  else
    let partition_response := {| sync_leo := leo; sync_hw := hw; sync_records := RecordsEmpty |} in
    if home_leo <? leo then
      match read_records leader home_leo (max_bytes c) (isolation c) with
      | Ok slice =>
          match file_slice slice with
          | Some fs => ret (Some {| sync_leo := leo; sync_hw := hw; sync_records := RecordsSlice fs |})
          | None => ret (Some partition_response)
          end
      | Err e => fail ("error reading records: " ++ e)
      end
    else fail home_ahead_error.

(** [update_home] *)
Definition update_home (leader : LeaderState) (home_leo : Offset) : ctl unit :=
  o <- generate_home_sync leader home_leo ;;
  match o with
  | Some sync_request =>
      emit (ASend (FilePartitionSync ("leader: " ++ leader_id c) sync_request))
  | None => ret tt
  end.

(** [send_initial_request] *)
Definition send_initial_request (home : Home) : ctl unit :=
  emit (ASend (StartMirrorRequest (remote_id home) (leader_id c))).

(** [find_home_cluster] over a snapshot of the mirror store. *)
Fixpoint store_get (store : MirrorStore) (k : string) : option MirrorType :=
  match store with
  | [] => None
  | (k', v) :: rest => if String.eqb k k' then Some v else store_get rest k
  end.

Definition find_home_cluster (store : MirrorStore) : option Home :=
  match store_get store (home_cluster (remote_config c)) with
  | Some (MirrorHome home) => Some home
  | Some _ => None
  | None => None
  end.

(** A connected socket is identified by a number. *)
Definition FluvioSocket := Z.

(** [create_socket_to_home]: [attempts] are the answers of successive
    [FluvioSocket::connect] calls. *)
Fixpoint create_socket_to_home (attempts : list (result FluvioSocket))
  : ctl (FluvioSocket * bool) :=
  match attempts with
  | [] => pending
  | res :: rest =>
      increase_conn_count ;;;
      emit (AConnect (home_spu_endpoint (remote_config c))) ;;;
      match res with
      | Ok socket => ret (socket, false)
      | Err _ => backoff_and_wait ;;; create_socket_to_home rest
      end
  end.

End Controller.

(** ** Sync loop and supervisor *)

Definition CLUSTER_LOOKUP_SEC : Z := 5.

(** What the [select!] of one iteration wakes up on: the leader offset
    listener, or [home_api_stream.next()] ([None] = end of stream,
    [Some (Err _)] = frame decode error). *)
Inductive Event :=
| EvOffsetChange
| EvHomeFrame (msg : option (result HomeMirrorRequest)).

Section Loop.

Variable c : Controller.

(** Start of a loop iteration, before the [select!]: update home if the
    flag is set and [home_leo] is known. *)
Definition pre_select (home_updated_needed : bool) (leader : LeaderState) : ctl bool :=
  home_leo <- get_home_leo ;;
  if home_updated_needed && (0 <=? home_leo) then
    update_home c leader home_leo ;;; ret false
  else ret home_updated_needed.

(** The [loop] of [sync_mirror_loop]; each element of [evs] is one
    iteration: the leader state during that iteration and the event the
    [select!] returns.  [Done tt] is the [break]. *)
Fixpoint sync_loop (home_updated_needed : bool) (evs : list (LeaderState * Event))
  : ctl unit :=
  match evs with
  | [] => pending
  | (leader, ev) :: rest =>
      home_updated_needed <- pre_select home_updated_needed leader ;;
      match ev with
      | EvOffsetChange =>
          increase_conn_count ;;; sync_loop true rest
      | EvHomeFrame (Some (Ok (UpdateHomeOffset req))) =>
          b <- update_from_home leader req ;;
          increase_conn_count ;;; sync_loop b rest
      | EvHomeFrame (Some (Err e)) => fail e
      | EvHomeFrame None => backoff_and_wait ;;; ret tt
      end
  end.

(** [sync_mirror_loop]; the [tls] flag only disables zero copy on the
    sink, which changes how bytes are copied, not which frames are sent. *)
Definition sync_mirror_loop (home : Home) (sock : FluvioSocket * bool)
  (evs : list (LeaderState * Event)) : ctl unit :=
  send_initial_request c home ;;; sync_loop false evs.

(** One iteration of the supervisor [loop] of [dispatch_loop], with the
    environment answers it consumes. *)
Record Round := {
  round_store : MirrorStore;
  round_connects : list (result FluvioSocket);
  round_events : list (LeaderState * Event)
}.

Fixpoint dispatch_rounds (rounds : list Round) : ctl unit :=
  match rounds with
  | [] => pending
  | r :: rest =>
      match find_home_cluster c (round_store r) with
      | Some home =>
          increase_loop_count ;;;
          sock <- create_socket_to_home c (round_connects r) ;;
          res <- try_ctl (sync_mirror_loop home sock (round_events r)) ;;
          match res with
          | Err _ => backoff_and_wait
          | Ok _ => ret tt
          end ;;;
          dispatch_rounds rest
      | None => emit (ASleep CLUSTER_LOOKUP_SEC) ;;; dispatch_rounds rest
      end
  end.

(** [dispatch_loop]: initial delay, then the supervisor loop. *)
Definition dispatch_loop (rounds : list Round) : ctl unit :=
  emit (ASleep CLUSTER_LOOKUP_SEC) ;;; dispatch_rounds rounds.

End Loop.

(** ** Concrete instances used by the examples *)

Definition edge_home : Home := {| home_id := "edge1"%string; remote_id := "edge1"%string |}.

Definition ctrl0 : Controller :=
  {| leader_id := "temp-0"%string;
     remote_config := {| home_cluster := "edge1"%string; home_spu_id := 5001;
                         home_spu_endpoint := "127.0.0.1:9010"%string |};
     max_bytes := 1048576;
     isolation := ReadUncommitted |}.

Definition store0 : MirrorStore := [("edge1"%string, MirrorHome edge_home)].

(** A leader whose log holds [leo] records of 100 bytes each. *)
Definition leader_at (leo : Offset) : LeaderState :=
  {| leader_leo := leo; leader_hw := leo;
     read_records := fun start _ _ =>
       Ok {| slice_end := {| end_leo := leo; end_hw := leo |};
             file_slice := if start <? leo
                           then Some {| slice_pos := start * 100; slice_len := (leo - start) * 100 |}
                           else None |} |}.

Definition with_home_leo (h : Offset) : MirrorControllerMetrics :=
  {| loop_count := 0; connect_count := 0; connect_failure := 0; home_leo := h |}.

Definition upd (leo : Offset) : Event :=
  EvHomeFrame (Some (Ok (UpdateHomeOffset {| req_leo := leo |}))).

Definition round_ahead : Round :=
  {| round_store := store0; round_connects := [Ok 1];
     round_events := [(leader_at 4, upd 9)] |}.

Definition round_first_update : Round :=
  {| round_store := store0; round_connects := [Ok 1];
     round_events := [(leader_at 2, upd 0); (leader_at 2, EvHomeFrame None)] |}.

Definition round_no_update : Round :=
  {| round_store := store0; round_connects := [Ok 2];
     round_events := [(leader_at 3, EvOffsetChange); (leader_at 3, EvOffsetChange)] |}.

Definition round_bad_frame : Round :=
  {| round_store := store0; round_connects := [Ok 1];
     round_events := [(leader_at 2, EvHomeFrame (Some (Err "bad frame"%string)))] |}.

(** ** Package index (src/package-index/src/lib.rs)

    [semver::Version] and [Target] are defined outside this file set; the
    code only uses their [PartialEq] ([==]) and, for versions, their [Ord]
    ([cmp]), which are type classes here. *)

Class PartialEqB (A : Type) := eq_b : A -> A -> bool.
Class OrdB (A : Type) := cmp_b : A -> A -> comparison.

Record Release (V T : Type) := {
  version : V;
  yanked : bool;
  targets : list T
}.
Arguments version {V T} r.
Arguments yanked {V T} r.
Arguments targets {V T} r.

Inductive PackageKind := Binary.

Record PackageId := { pid_name : string; pid_group : string }.

Record Package (V T : Type) := {
  pkg_name : string;
  pkg_group : string;
  kind : PackageKind;
  author : option string;
  description : option string;
  repository : option string;
  releases : list (Release V T)
}.
Arguments pkg_name {V T} p.
Arguments pkg_group {V T} p.
Arguments kind {V T} p.
Arguments author {V T} p.
Arguments description {V T} p.
Arguments repository {V T} p.
Arguments releases {V T} p.

(** The crate's [Error] variants used here. *)
Inductive IndexError (T : Type) :=
| NoReleases (id : PackageId)
| MissingTarget (target : T).
Arguments NoReleases {T} id.
Arguments MissingTarget {T} target.

Inductive IndexResult (A T : Type) :=
| IOk (a : A)
| IErr (e : IndexError T).
Arguments IOk {A T} a.
Arguments IErr {A T} e.

Section PackageIndex.

Context {V T : Type} `{PartialEqB V} `{OrdB V} `{PartialEqB T}.

Definition with_releases (p : Package V T) (rs : list (Release V T)) : Package V T :=
  {| pkg_name := pkg_name p; pkg_group := pkg_group p; kind := kind p; author := author p;
     description := description p; repository := repository p; releases := rs |}.

(** [Package::new_binary] *)
Definition new_binary (id : PackageId) (author desc repo : string) : Package V T :=
  {| pkg_name := pid_name id; pkg_group := pid_group id; kind := Binary;
     author := Some author; description := Some desc; repository := Some repo;
     releases := [] |}.

(** [Package::package_id] *)
Definition package_id (p : Package V T) : PackageId :=
  {| pid_name := pkg_name p; pid_group := pkg_group p |}.

(** [Release::new] *)
Definition release_new (v : V) (t : T) : Release V T :=
  {| version := v; yanked := false; targets := [t] |}.

(** [Release::target_exists] *)
Definition target_exists (r : Release V T) (t : T) : bool :=
  existsb (fun it => eq_b it t) (targets r).

(** [Release::add_target] *)
Definition add_target (r : Release V T) (t : T) : Release V T :=
  if negb (target_exists r t)
  then {| version := version r; yanked := yanked r; targets := targets r ++ [t] |}
  else r.

(** [self.releases.iter_mut().find(|it| it.version == version)] followed by
    [release.add_target(target)]: [None] when no release has the version. *)
Fixpoint find_and_add_target (v : V) (t : T) (rs : list (Release V T))
  : option (list (Release V T)) :=
  match rs with
  | [] => None
  | r :: rest =>
      if eq_b (version r) v then Some (add_target r t :: rest)
      else option_map (cons r) (find_and_add_target v t rest)
  end.

(** [slice::sort_by] is a stable sort, so its result is fixed by the
    comparator; insertion sort computes it. *)
Fixpoint insert_by {A} (cmp : A -> A -> comparison) (x : A) (l : list A) : list A :=
  match l with
  | [] => [x]
  | y :: ys => match cmp x y with
               | Lt => x :: y :: ys
               | _ => y :: insert_by cmp x ys
               end
  end.

Definition sort_by {A} (cmp : A -> A -> comparison) (l : list A) : list A :=
  fold_left (fun acc x => insert_by cmp x acc) l [].

Definition release_cmp (a b : Release V T) : comparison := cmp_b (version a) (version b).

(** [Package::add_release]; it always returns [Ok(())]. *)
Definition add_release (p : Package V T) (v : V) (t : T) : IndexResult (Package V T) T :=
  match find_and_add_target v t (releases p) with
  | Some rs => IOk (with_releases p rs)
  | None => IOk (with_releases p (sort_by release_cmp (releases p ++ [release_new v t])))
  end.

(** [Package::latest_release] *)
Definition latest_release (p : Package V T) : IndexResult (Release V T) T :=
  match rev (releases p) with
  | r :: _ => IOk r
  | [] => IErr (NoReleases (package_id p))
  end.

(** [Package::latest_release_for_target] *)
Definition latest_release_for_target (p : Package V T) (t : T) : IndexResult (Release V T) T :=
  match find (fun it => existsb (fun x => eq_b x t) (targets it)) (rev (releases p)) with
  | Some r => IOk r
  | None => IErr (MissingTarget t)
  end.

(** Strict order on versions. *)
Definition version_lt (a b : V) : Prop := cmp_b a b = Lt.

End PackageIndex.

#[export] Instance nat_eq : PartialEqB nat := Nat.eqb.
#[export] Instance nat_ord : OrdB nat := Nat.compare.

(** A package with numeric versions and targets, as built by
    [Package::new_binary] and then given two releases. *)
Definition fluvio_id : PackageId := {| pid_name := "fluvio"%string; pid_group := "fluvio"%string |}.
Definition pkg_empty : Package nat nat :=
  new_binary fluvio_id "Bob"%string "A package"%string "https://github.com"%string.
Definition release_v3 : Release nat nat :=
  {| version := 3%nat; yanked := false; targets := [1%nat; 2%nat] |}.
Definition pkg0 : Package nat nat :=
  with_releases pkg_empty [release_new 1%nat 1%nat; release_v3].

(** Number of [backoff_and_wait] sleeps in a trace. *)
Fixpoint count_backoffs (w : list Action) : nat :=
  match w with
  | [] => O
  | ABackoff :: rest => S (count_backoffs rest)
  | _ :: rest => count_backoffs rest
  end.

(** [connect_failure] moves by one wrapped increment per backoff of the
    trace the operation produces. *)
Definition counts_failures {A} (m : ctl A) : Prop :=
  forall st, connect_failure (snd (fst (m st)))
             = Nat.iter (count_backoffs (snd (m st))) u64_incr (connect_failure st).

(** ** Observations used in the statements *)

(** The [home_leo] values stored after each of a sequence of
    [update_from_home] calls; the metrics survive a failed call (the
    connection is dropped, the controller state is not reset). *)
Fixpoint home_leo_trace
  (calls : list (LeaderState * UpdateHomeOffsetRequest)) (st : MirrorControllerMetrics)
  : list Offset :=
  match calls with
  | [] => []
  | (leader, req) :: rest =>
      let '(_, st', _) := update_from_home leader req st in
      home_leo st' :: home_leo_trace rest st'
  end.

Fixpoint nondecreasing (l : list Z) : bool :=
  match l with
  | x :: ((y :: _) as t) => (x <=? y) && nondecreasing t
  | _ => true
  end.

Definition is_sync_frame (a : Action) : bool :=
  match a with
  | ASend (FilePartitionSync _ _) => true
  | _ => false
  end.

Definition is_home_update (ev : Event) : bool :=
  match ev with
  | EvHomeFrame (Some (Ok (UpdateHomeOffset _))) => true
  | _ => false
  end.

Definition no_home_update (evs : list (LeaderState * Event)) : bool :=
  forallb (fun p => negb (is_home_update (snd p))) evs.

Definition preserves_home_leo {A} (m : ctl A) : Prop :=
  forall st, home_leo (snd (fst (m st))) = home_leo st.

(** ** Basic facts about the monad *)

Lemma bind_done {A B} (m : ctl A) (k : A -> ctl B) st a st1 w1 :
  m st = (Done a, st1, w1) ->
  bind m k st = let '(o, st2, w2) := k a st1 in (o, st2, w1 ++ w2).
Proof. intros H; unfold bind; rewrite H; reflexivity. Qed.

Lemma bind_fail {A B} (m : ctl A) (k : A -> ctl B) st e st1 w1 :
  m st = (Fail e, st1, w1) -> bind m k st = (Fail e, st1, w1).
Proof. intros H; unfold bind; rewrite H; reflexivity. Qed.

Lemma preserves_bind {A B} (m : ctl A) (k : A -> ctl B) :
  preserves_home_leo m -> (forall a, preserves_home_leo (k a)) ->
  preserves_home_leo (bind m k).
Proof.
  intros Hm Hk st; unfold bind.
  specialize (Hm st); destruct (m st) as [[o st1] w1]; simpl in Hm.
  destruct o as [a| |]; simpl; try exact Hm.
  specialize (Hk a st1); destruct (k a st1) as [[o2 st2] w2]; simpl in *; congruence.
Qed.

Lemma preserves_ret {A} (a : A) : preserves_home_leo (ret a).
Proof. intros st; reflexivity. Qed.

Lemma preserves_fail {A} (e : string) : preserves_home_leo (@fail A e).
Proof. intros st; reflexivity. Qed.

Lemma preserves_pending {A} : preserves_home_leo (@pending A).
Proof. intros st; reflexivity. Qed.

Lemma preserves_emit a : preserves_home_leo (emit a).
Proof. intros st; reflexivity. Qed.

Lemma preserves_get_home_leo : preserves_home_leo get_home_leo.
Proof. intros st; reflexivity. Qed.

Lemma preserves_incr_loop : preserves_home_leo increase_loop_count.
Proof. intros st; reflexivity. Qed.

Lemma preserves_incr_conn : preserves_home_leo increase_conn_count.
Proof. intros st; reflexivity. Qed.

Lemma preserves_incr_failure : preserves_home_leo increase_conn_failure.
Proof. intros st; reflexivity. Qed.

Lemma preserves_try {A} (m : ctl A) :
  preserves_home_leo m -> preserves_home_leo (try_ctl m).
Proof.
  intros Hm st; specialize (Hm st); unfold try_ctl.
  destruct (m st) as [[[a|e|] st1] w1]; exact Hm.
Qed.

Create HintDb home_leo_frame.
#[local] Hint Resolve preserves_bind preserves_ret preserves_fail preserves_pending
  preserves_emit preserves_get_home_leo preserves_incr_loop preserves_incr_conn
  preserves_incr_failure preserves_try : home_leo_frame.

(** ** update_from_home *)

(** C1: the effect of [update_from_home] on the stored [home_leo], in the
    order the code performs it. *)
Theorem update_from_home_behaviour (leader : LeaderState)
  (req : UpdateHomeOffsetRequest) (st : MirrorControllerMetrics) :
  let new_home_leo := req_leo req in
  let bootstrapped := if home_leo st <? 0 then m_set_home_leo new_home_leo st else st in
  update_from_home leader req st =
  match Z.compare new_home_leo (leader_leo leader) with
  | Gt => (Fail update_from_home_error, bootstrapped, [])
  | Lt => (Done true, m_set_home_leo new_home_leo bootstrapped, [])
  | Eq => (Done false, bootstrapped, [])
  end.
Proof.
  simpl; unfold update_from_home, bind, get_home_leo, gets, update_home_leo, modify, ret, fail.
  destruct (home_leo st <? 0); destruct (req_leo req ?= leader_leo leader); reflexivity.
Qed.

(** C8: on the bootstrap path with a home ahead of the leader,
    [update_from_home] stores the reported offset and then fails; the
    supervisor then backs off and starts the next connection from metrics
    whose [home_leo] is that offset, above the leader's [leo]. *)
Theorem update_from_home_bootstrap_error_stores (c : Controller) (leader : LeaderState)
  (req : UpdateHomeOffsetRequest) (st : MirrorControllerMetrics)
  (Huninit : home_leo st < 0) (Hahead : leader_leo leader < req_leo req)
  (r : Round) (rest : list Round) (home : Home) (s : FluvioSocket)
  (cs : list (result FluvioSocket)) (evs : list (LeaderState * Event))
  (Hfind : find_home_cluster c (round_store r) = Some home)
  (Hconn : round_connects r = Ok s :: cs)
  (Hevs : round_events r = (leader, EvHomeFrame (Some (Ok (UpdateHomeOffset req)))) :: evs) :
  update_from_home leader req st =
    (Fail update_from_home_error, m_set_home_leo (req_leo req) st, [])
  /\ leader_leo leader < home_leo (m_set_home_leo (req_leo req) st)
  /\ dispatch_rounds c (r :: rest) st =
       (let st1 := m_incr_failure (m_set_home_leo (req_leo req) (m_incr_conn (m_incr_loop st))) in
        let '(o, st2, w2) := dispatch_rounds c rest st1 in
        (o, st2, [AConnect (home_spu_endpoint (remote_config c));
                  ASend (StartMirrorRequest (remote_id home) (leader_id c)); ABackoff] ++ w2))
  /\ home_leo (m_incr_failure (m_set_home_leo (req_leo req) (m_incr_conn (m_incr_loop st))))
     = req_leo req.
Proof.
  assert (H1 : (home_leo st <? 0) = true) by (apply Z.ltb_lt; exact Huninit).
  assert (H2 : (req_leo req ?= leader_leo leader) = Gt) by (apply Z.compare_gt_iff; exact Hahead).
  refine (conj _ (conj Hahead (conj _ eq_refl))).
  - unfold update_from_home, bind, get_home_leo, gets, update_home_leo, modify, fail; cbn.
    rewrite H1, H2; reflexivity.
  - cbn [dispatch_rounds]; rewrite Hfind, Hconn, Hevs.
    unfold sync_mirror_loop; cbn [create_socket_to_home sync_loop].
    unfold send_initial_request, try_ctl, backoff_and_wait, increase_loop_count,
      increase_conn_count, increase_conn_failure, pre_select, get_home_leo, gets,
      update_from_home, update_home_leo, modify, emit, ret, fail, bind.
    cbn; rewrite H1, H2; cbn.
    destruct (dispatch_rounds c rest _) as [[o st2] w2]; reflexivity.
Qed.

Lemma update_from_home_bootstrap_error_stores_witness :
  home_leo metrics_new < 0 /\ leader_leo (leader_at 4) < 9 /\
  (update_from_home (leader_at 4) {| req_leo := 9 |} metrics_new =
     (Fail update_from_home_error, m_set_home_leo 9 metrics_new, [])
   /\ leader_leo (leader_at 4) < home_leo (m_set_home_leo 9 metrics_new)
   /\ dispatch_rounds ctrl0 [round_ahead] metrics_new =
       (let st1 := m_incr_failure (m_set_home_leo 9 (m_incr_conn (m_incr_loop metrics_new))) in
        let '(o, st2, w2) := dispatch_rounds ctrl0 [] st1 in
        (o, st2, [AConnect (home_spu_endpoint (remote_config ctrl0));
                  ASend (StartMirrorRequest (remote_id edge_home) (leader_id ctrl0)); ABackoff] ++ w2))
   /\ home_leo (m_incr_failure (m_set_home_leo 9 (m_incr_conn (m_incr_loop metrics_new)))) = 9).
Proof.
  refine (conj _ (conj _ _)); [simpl; lia | simpl; lia |].
  apply (update_from_home_bootstrap_error_stores ctrl0 (leader_at 4) {| req_leo := 9 |}
           metrics_new ltac:(simpl; lia) ltac:(simpl; lia) round_ahead [] edge_home 1 [] []);
    reflexivity.
Defined.

(** ** generate_home_sync *)

(** C4: [generate_home_sync] compares the leader's [leo] with [home_leo],
    and when behind reads [max_bytes] from [home_leo] with the configured
    isolation. *)
Theorem generate_home_sync_behaviour (c : Controller) (leader : LeaderState)
  (h : Offset) (st : MirrorControllerMetrics) :
  generate_home_sync c leader h st =
  if leader_leo leader =? h then (Done None, st, [])
  else if leader_leo leader <? h then (Fail home_ahead_error, st, [])
  else match read_records leader h (max_bytes c) (isolation c) with
       | Ok slice =>
           (Done (Some {| sync_leo := leader_leo leader; sync_hw := leader_hw leader;
                          sync_records := match file_slice slice with
                                          | Some fs => RecordsSlice fs
                                          | None => RecordsEmpty
                                          end |}), st, [])
       | Err e => (Fail ("error reading records: " ++ e)%string, st, [])
       end.
Proof.
  unfold generate_home_sync, ret, fail.
  destruct (Z.eqb_spec (leader_leo leader) h) as [Heq|Hne]; [reflexivity|].
  destruct (Z.ltb_spec (leader_leo leader) h) as [Hlt|Hge].
  - replace (h <? leader_leo leader) with false by (symmetry; apply Z.ltb_ge; lia).
    reflexivity.
  - replace (h <? leader_leo leader) with true by (symmetry; apply Z.ltb_lt; lia).
    destruct (read_records leader h (max_bytes c) (isolation c)) as [slice|e]; [|reflexivity].
    destruct (file_slice slice); reflexivity.
Qed.

(** ** Invariant [home_leo <= leader_leo] *)

(** C2: a fresh controller (home_leo = -1) whose leader is at [leo = 4]
    receives [UpdateHomeOffset { leo = 9 }]: the connection is dropped, and
    the metrics kept for the next connection hold [home_leo = 9 > 4]. *)
Theorem home_leo_above_leader_after_rejected_update :
  dispatch_loop ctrl0 [round_ahead] metrics_new =
    (Pending,
     {| loop_count := 1; connect_count := 1; connect_failure := 1; home_leo := 9 |},
     [ASleep 5; AConnect "127.0.0.1:9010"%string;
      ASend (StartMirrorRequest "edge1"%string "temp-0"%string); ABackoff])
  /\ leader_leo (leader_at 4) < home_leo (snd (fst (dispatch_loop ctrl0 [round_ahead] metrics_new))).
Proof. split; vm_compute; reflexivity. Qed.

(** ** Monotonicity of [home_leo] *)

(** C5 (as stated, refuted): the leader is at [leo = 10]; home reports 5,
    then 3.  Both are below the leader, so both are stored: 5 then 3. *)
Lemma home_leo_decreases :
  home_leo_trace [(leader_at 10, {| req_leo := 5 |}); (leader_at 10, {| req_leo := 3 |})]
    metrics_new = [5; 3]
  /\ nondecreasing (home_leo metrics_new ::
       home_leo_trace [(leader_at 10, {| req_leo := 5 |}); (leader_at 10, {| req_leo := 3 |})]
         metrics_new) = false.
Proof. split; reflexivity. Qed.

Lemma update_from_home_stores_old_or_new leader req st :
  let st' := snd (fst (update_from_home leader req st)) in
  home_leo st' = home_leo st \/ home_leo st' = req_leo req.
Proof.
  simpl; unfold update_from_home, bind, get_home_leo, gets, update_home_leo, modify, ret, fail.
  destruct (home_leo st <? 0); destruct (req_leo req ?= leader_leo leader); simpl; auto.
Qed.

Lemma nondecreasing_cons x y l :
  nondecreasing (x :: y :: l) = true <-> x <= y /\ nondecreasing (y :: l) = true.
Proof. simpl; rewrite andb_true_iff, Z.leb_le; tauto. Qed.

(** C5 (amended): every value [update_from_home] stores is the [leo] of the
    request being processed, so [home_leo] is non-decreasing over a sequence
    of requests exactly when home does not report a [leo] below the value
    already stored: if the reported values, preceded by the stored one, are
    non-decreasing, so are the stored values. *)
Theorem home_leo_monotone_under_monotone_reports
  (calls : list (LeaderState * UpdateHomeOffsetRequest)) (st : MirrorControllerMetrics)
  (Hreports : nondecreasing (home_leo st :: map (fun p => req_leo (snd p)) calls) = true) :
  nondecreasing (home_leo st :: home_leo_trace calls st) = true.
Proof.
  revert st Hreports; induction calls as [|[leader req] rest IH]; intros st Hreports;
    [reflexivity|].
  cbn [map snd] in Hreports; apply nondecreasing_cons in Hreports as [Hle Hrest].
  cbn [home_leo_trace].
  pose proof (update_from_home_stores_old_or_new leader req st) as Hst; cbn zeta in Hst.
  destruct (update_from_home leader req st) as [[o st'] w] eqn:E; simpl in Hst.
  apply nondecreasing_cons; split; [lia|].
  apply IH.
  destruct rest as [|[leader2 req2] rest']; [reflexivity|].
  cbn [map snd] in Hrest |- *; apply nondecreasing_cons in Hrest as [Hle2 Hrest2].
  apply nondecreasing_cons; split; [lia | exact Hrest2].
Qed.

Lemma home_leo_monotone_under_monotone_reports_witness :
  nondecreasing (home_leo metrics_new ::
    map (fun p => req_leo (snd p)) [(leader_at 10, {| req_leo := 3 |}); (leader_at 10, {| req_leo := 5 |})]) = true
  /\ nondecreasing (home_leo metrics_new ::
       home_leo_trace [(leader_at 10, {| req_leo := 3 |}); (leader_at 10, {| req_leo := 5 |})] metrics_new) = true.
Proof.
  split; [reflexivity|].
  apply home_leo_monotone_under_monotone_reports; reflexivity.
Defined.

(** ** Handshake and first records of a connection *)

Lemma pre_select_unknown_home_leo c flag leader st :
  home_leo st < 0 -> pre_select c flag leader st = (Done flag, st, []).
Proof.
  intros H; unfold pre_select, bind, get_home_leo, gets, ret; cbn.
  replace (0 <=? home_leo st) with false by (symmetry; apply Z.leb_gt; exact H).
  rewrite andb_false_r; reflexivity.
Qed.

Lemma sync_loop_no_records_without_update c flag evs st :
  home_leo st < 0 -> no_home_update evs = true ->
  existsb is_sync_frame (snd (sync_loop c flag evs st)) = false.
Proof.
  revert flag st; induction evs as [|[leader ev] rest IH]; intros flag st Hneg Hno;
    [reflexivity|].
  cbn [no_home_update forallb snd] in Hno; apply andb_true_iff in Hno as [Hev Hrest].
  cbn [sync_loop].
  rewrite (bind_done _ _ _ _ _ _ (pre_select_unknown_home_leo c flag leader st Hneg)).
  destruct ev as [|[[[req]|e]|]]; cbn [is_home_update negb snd] in Hev; try discriminate.
  - unfold increase_conn_count, modify, bind.
    specialize (IH true (m_incr_conn st) Hneg Hrest).
    destruct (sync_loop c true rest (m_incr_conn st)) as [[o st2] w2]; exact IH.
  - reflexivity.
  - reflexivity.
Qed.

(** C3 (as stated, refuted): on a first connection home reports [leo = 0]
    and records are sent; home then closes the stream.  On the second
    connection no [UpdateHomeOffsetRequest] arrives, yet after the first
    leader offset change records are sent, since [home_leo] kept its value
    across the reconnect. *)
Lemma records_before_update_after_reconnect :
  no_home_update (round_events round_no_update) = true
  /\ snd (dispatch_loop ctrl0 [round_first_update; round_no_update] metrics_new) =
     [ASleep 5;
      AConnect "127.0.0.1:9010"%string;
      ASend (StartMirrorRequest "edge1"%string "temp-0"%string);
      ASend (FilePartitionSync "leader: temp-0"%string
               {| sync_leo := 2; sync_hw := 2;
                  sync_records := RecordsSlice {| slice_pos := 0; slice_len := 200 |} |});
      ABackoff;
      AConnect "127.0.0.1:9010"%string;
      ASend (StartMirrorRequest "edge1"%string "temp-0"%string);
      ASend (FilePartitionSync "leader: temp-0"%string
               {| sync_leo := 3; sync_hw := 3;
                  sync_records := RecordsSlice {| slice_pos := 0; slice_len := 300 |} |})].
Proof. split; vm_compute; reflexivity. Qed.

(** C3 (amended): every connection starts with [StartMirrorRequest] carrying
    the home's [remote_id] and the leader's id; records are sent on a
    connection only once [home_leo] is known: from metrics with
    [home_leo < 0], a connection on which no [UpdateHomeOffsetRequest]
    arrives sends no [FilePartitionSyncRequest].  ([home_leo] is not reset
    on reconnect, so a later connection may send records before its own
    first update.) *)
Theorem connection_starts_with_handshake c home sock evs st :
  (exists o st' rest,
      sync_mirror_loop c home sock evs st =
      (o, st', ASend (StartMirrorRequest (remote_id home) (leader_id c)) :: rest))
  /\ (home_leo st < 0 -> no_home_update evs = true ->
      existsb is_sync_frame (snd (sync_mirror_loop c home sock evs st)) = false).
Proof.
  unfold sync_mirror_loop, send_initial_request, emit, bind.
  split.
  - destruct (sync_loop c false evs st) as [[o st'] w]; exists o, st', w; reflexivity.
  - intros Hneg Hno.
    pose proof (sync_loop_no_records_without_update c false evs st Hneg Hno) as H.
    destruct (sync_loop c false evs st) as [[o st'] w]; exact H.
Qed.

Lemma connection_starts_with_handshake_witness :
  (home_leo metrics_new < 0 /\ no_home_update (round_events round_no_update) = true)
  /\ existsb is_sync_frame
       (snd (sync_mirror_loop ctrl0 edge_home (2, false) (round_events round_no_update) metrics_new))
     = false.
Proof.
  split; [split; [simpl; lia | reflexivity]|].
  apply (proj2 (connection_starts_with_handshake ctrl0 edge_home (2, false)
                  (round_events round_no_update) metrics_new)); [simpl; lia | reflexivity].
Defined.

(** ** Caught-up home *)

(** C6: when the leader's [leo] equals the stored [home_leo], the start of a
    loop iteration writes nothing ([generate_home_sync] gives [None],
    [update_home] sends nothing), and an [UpdateHomeOffsetRequest] whose
    [leo] equals the leader's clears the update flag. *)
Theorem caught_up_home_gets_no_records (c : Controller) (leader : LeaderState)
  (st : MirrorControllerMetrics) (Hcaught : leader_leo leader = home_leo st) :
  generate_home_sync c leader (home_leo st) st = (Done None, st, [])
  /\ update_home c leader (home_leo st) st = (Done tt, st, [])
  /\ (forall flag, exists flag', pre_select c flag leader st = (Done flag', st, []))
  /\ (forall req, req_leo req = leader_leo leader ->
        exists st', update_from_home leader req st = (Done false, st', [])).
Proof.
  assert (Hgen : generate_home_sync c leader (home_leo st) st = (Done None, st, [])).
  { unfold generate_home_sync, ret; rewrite Hcaught, Z.eqb_refl; reflexivity. }
  assert (Hupd : update_home c leader (home_leo st) st = (Done tt, st, [])).
  { unfold update_home; rewrite (bind_done _ _ _ _ _ _ Hgen); reflexivity. }
  refine (conj Hgen (conj Hupd (conj _ _))).
  - intros flag; unfold pre_select, get_home_leo, gets.
    rewrite (bind_done _ _ st (home_leo st) st []) by reflexivity.
    destruct (flag && (0 <=? home_leo st)).
    + rewrite (bind_done _ _ _ _ _ _ Hupd); eexists; reflexivity.
    + eexists; reflexivity.
  - intros req Hreq.
    unfold update_from_home, bind, get_home_leo, gets, update_home_leo, modify, ret, fail; cbn.
    rewrite Hreq, Z.compare_refl.
    destruct (home_leo st <? 0); eexists; reflexivity.
Qed.

Lemma caught_up_home_gets_no_records_witness :
  generate_home_sync ctrl0 (leader_at 5) (home_leo (with_home_leo 5)) (with_home_leo 5)
    = (Done None, with_home_leo 5, []).
Proof.
  apply (caught_up_home_gets_no_records ctrl0 (leader_at 5) (with_home_leo 5)); reflexivity.
Defined.

(** ** End of stream and decode errors *)

(** C7: once the start of the iteration has run, end of stream backs off
    and leaves the loop with [Ok], a decode error leaves it with that
    error; the supervisor backs off after an [Err] before the next round. *)
Theorem stream_end_and_decode_error (c : Controller) (flag : bool) (leader : LeaderState)
  (rest : list (LeaderState * Event)) (st : MirrorControllerMetrics)
  (f : bool) (st1 : MirrorControllerMetrics) (w : list Action) (e : string)
  (Hpre : pre_select c flag leader st = (Done f, st1, w))
  (r : Round) (rounds : list Round) (home : Home) (sock : FluvioSocket * bool)
  (st0 st2 st3 : MirrorControllerMetrics) (w1 w3 : list Action) (e' : string)
  (Hfind : find_home_cluster c (round_store r) = Some home)
  (Hconn : create_socket_to_home c (round_connects r) (m_incr_loop st0) = (Done sock, st2, w1))
  (Hsync : sync_mirror_loop c home sock (round_events r) st2 = (Fail e', st3, w3)) :
  sync_loop c flag ((leader, EvHomeFrame None) :: rest) st
    = (Done tt, m_incr_failure st1, w ++ [ABackoff])
  /\ sync_loop c flag ((leader, EvHomeFrame (Some (Err e))) :: rest) st = (Fail e, st1, w)
  /\ dispatch_rounds c (r :: rounds) st0 =
     (let '(o, st4, w4) := dispatch_rounds c rounds (m_incr_failure st3) in
      (o, st4, w1 ++ (w3 ++ ([ABackoff] ++ w4)))).
Proof.
  split; [|split].
  - cbn [sync_loop]; rewrite (bind_done _ _ _ _ _ _ Hpre); reflexivity.
  - cbn [sync_loop]; rewrite (bind_done _ _ _ _ _ _ Hpre); unfold fail; cbn; rewrite app_nil_r; reflexivity.
  - cbn [dispatch_rounds]; rewrite Hfind.
    unfold increase_loop_count, modify.
    rewrite (bind_done _ _ st0 tt (m_incr_loop st0) []) by reflexivity.
    rewrite (bind_done _ _ _ _ _ _ Hconn).
    assert (Htry : try_ctl (sync_mirror_loop c home sock (round_events r)) st2
                   = (Done (Err e'), st3, w3)) by (unfold try_ctl; rewrite Hsync; reflexivity).
    rewrite (bind_done _ _ _ _ _ _ Htry).
    unfold backoff_and_wait, emit, increase_conn_failure, modify, bind; cbn.
    destruct (dispatch_rounds c rounds (m_incr_failure st3)) as [[o st4] w4].
    reflexivity.
Qed.

Lemma stream_end_and_decode_error_witness :
  sync_loop ctrl0 false [(leader_at 2, EvHomeFrame None)] metrics_new
    = (Done tt, m_incr_failure metrics_new, [] ++ [ABackoff]).
Proof.
  apply (stream_end_and_decode_error ctrl0 false (leader_at 2) [] metrics_new false metrics_new []
           "bad frame"%string eq_refl round_bad_frame [] edge_home (1, false)
           metrics_new (m_incr_conn (m_incr_loop metrics_new))
           (m_incr_conn (m_incr_loop metrics_new))
           [AConnect "127.0.0.1:9010"%string]
           [ASend (StartMirrorRequest "edge1"%string "temp-0"%string)]
           "bad frame"%string); reflexivity.
Defined.

(** ** Connector *)

(** C9: [create_socket_to_home] counts a connect on every attempt, dials
    [home_spu_endpoint], backs off after each failed attempt and returns the
    first connected socket with [tls = false]; it never fails (while every
    attempt fails it is still looping). *)
Theorem create_socket_to_home_never_fails (c : Controller) (fails : list string)
  (s : FluvioSocket) (rest : list (result FluvioSocket)) (st : MirrorControllerMetrics) :
  let ep := home_spu_endpoint (remote_config c) in
  create_socket_to_home c (map Err fails ++ Ok s :: rest) st =
    (Done (s, false),
     m_incr_conn (Nat.iter (length fails) (fun m => m_incr_failure (m_incr_conn m)) st),
     concat (map (fun _ => [AConnect ep; ABackoff]) fails) ++ [AConnect ep])
  /\ (forall attempts st' e, fst (fst (create_socket_to_home c attempts st')) <> Fail e).
Proof.
  split.
  - revert st; induction fails as [|err fails IH]; intros st; [reflexivity|].
    cbn [map app create_socket_to_home].
    unfold increase_conn_count, emit, modify, backoff_and_wait, increase_conn_failure.
    unfold bind; cbn.
    rewrite IH, (Nat.iter_swap (length fails) _ (fun m => m_incr_failure (m_incr_conn m)) st); reflexivity.
  - intros attempts; induction attempts as [|[sock|err] attempts IH]; intros st' e;
      [discriminate|discriminate|].
    cbn [create_socket_to_home].
    unfold increase_conn_count, emit, modify, backoff_and_wait, increase_conn_failure.
    unfold bind; cbn.
    specialize (IH (m_incr_failure (m_incr_conn st')) e).
    destruct (create_socket_to_home c attempts _) as [[o st2] w2]; exact IH.
Qed.

(** ** Writers of [home_leo] *)

Lemma generate_home_sync_preserves c leader h : preserves_home_leo (generate_home_sync c leader h).
Proof.
  intros st; unfold generate_home_sync.
  destruct (_ =? _); [reflexivity|]; destruct (_ <? _); [|reflexivity].
  destruct (read_records _ _ _ _) as [slice|err]; [destruct (file_slice slice)|]; reflexivity.
Qed.

Lemma update_home_preserves c leader h : preserves_home_leo (update_home c leader h).
Proof.
  unfold update_home; apply preserves_bind; [apply generate_home_sync_preserves|].
  intros [req|]; auto with home_leo_frame.
Qed.

Lemma backoff_and_wait_preserves : preserves_home_leo backoff_and_wait.
Proof. unfold backoff_and_wait; auto with home_leo_frame. Qed.

Lemma send_initial_request_preserves c home : preserves_home_leo (send_initial_request c home).
Proof. unfold send_initial_request; auto with home_leo_frame. Qed.

Lemma create_socket_to_home_preserves c attempts :
  preserves_home_leo (create_socket_to_home c attempts).
Proof.
  induction attempts as [|[sock|err] attempts IH]; cbn [create_socket_to_home];
    auto using backoff_and_wait_preserves with home_leo_frame.
Qed.

Lemma pre_select_preserves c flag leader : preserves_home_leo (pre_select c flag leader).
Proof.
  unfold pre_select; apply preserves_bind; [auto with home_leo_frame|].
  intros h; destruct (_ && _); auto using update_home_preserves with home_leo_frame.
Qed.

Lemma sync_loop_preserves c flag evs :
  no_home_update evs = true -> preserves_home_leo (sync_loop c flag evs).
Proof.
  revert flag; induction evs as [|[leader ev] rest IH]; intros flag Hno;
    cbn [sync_loop]; [auto with home_leo_frame|].
  cbn [no_home_update forallb snd] in Hno; apply andb_true_iff in Hno as [Hev Hrest].
  apply preserves_bind; [apply pre_select_preserves|]; intros f.
  destruct ev as [|[[[req]|e]|]]; cbn [is_home_update negb] in Hev; try discriminate;
    auto using backoff_and_wait_preserves with home_leo_frame.
Qed.

Lemma dispatch_rounds_preserves c rounds :
  forallb (fun r => no_home_update (round_events r)) rounds = true ->
  preserves_home_leo (dispatch_rounds c rounds).
Proof.
  induction rounds as [|r rounds IH]; intros Hno; cbn [dispatch_rounds];
    [auto with home_leo_frame|].
  cbn [forallb] in Hno; apply andb_true_iff in Hno as [Hr Hrest].
  destruct (find_home_cluster c (round_store r)) as [home|]; [|auto with home_leo_frame].
  apply preserves_bind; [auto with home_leo_frame|]; intros _.
  apply preserves_bind; [apply create_socket_to_home_preserves|]; intros sock.
  apply preserves_bind.
  - apply preserves_try; unfold sync_mirror_loop; apply preserves_bind;
      [apply send_initial_request_preserves|]; intros _; apply sync_loop_preserves, Hr.
  - intros res; apply preserves_bind; [destruct res; auto using backoff_and_wait_preserves with home_leo_frame|].
    intros _; apply IH, Hrest.
Qed.

(** C10: no operation other than [update_from_home] writes [home_leo]:
    sending records ([generate_home_sync], [update_home]), the handshake, the
    connector, the backoff and the start of a loop iteration leave it as it
    is, and a whole supervisor run in which no [UpdateHomeOffsetRequest]
    arrives leaves it unchanged. *)
Theorem home_leo_written_only_by_update_from_home (c : Controller) :
  (forall leader h, preserves_home_leo (generate_home_sync c leader h))
  /\ (forall leader h, preserves_home_leo (update_home c leader h))
  /\ (forall home, preserves_home_leo (send_initial_request c home))
  /\ (forall attempts, preserves_home_leo (create_socket_to_home c attempts))
  /\ preserves_home_leo backoff_and_wait
  /\ (forall flag leader, preserves_home_leo (pre_select c flag leader))
  /\ (forall rounds, forallb (fun r => no_home_update (round_events r)) rounds = true ->
        preserves_home_leo (dispatch_loop c rounds)).
Proof.
  refine (conj (generate_home_sync_preserves c) (conj (update_home_preserves c)
    (conj (send_initial_request_preserves c) (conj (create_socket_to_home_preserves c)
    (conj backoff_and_wait_preserves (conj (pre_select_preserves c) _)))))).
  intros rounds Hno; unfold dispatch_loop; apply preserves_bind;
    [auto with home_leo_frame|]; intros _; apply dispatch_rounds_preserves, Hno.
Qed.

Lemma home_leo_written_only_by_update_from_home_witness :
  home_leo (snd (fst (dispatch_loop ctrl0 [round_no_update] (with_home_leo 7)))) = 7.
Proof.
  apply (proj2 (proj2 (proj2 (proj2 (proj2 (proj2
           (home_leo_written_only_by_update_from_home ctrl0)))))) [round_no_update]).
  reflexivity.
Defined.

(** ** Further properties of the controller *)




(** Before waiting, an iteration of the sync loop writes at most one frame,
    a [FilePartitionSyncRequest] carrying the leader's [leo] and [hw] and the
    slice read from [home_leo]; it does so only when the flag is set, the
    home's offset is known and the leader is strictly ahead, and then clears
    the flag.  It never changes the metrics. *)
Theorem pre_select_sends_at_most_one_sync (c : Controller) (flag : bool)
  (leader : LeaderState) (st : MirrorControllerMetrics) :
  let '(o, st', w) := pre_select c flag leader st in
  st' = st /\
  (w = [] \/
   (flag = true /\ 0 <= home_leo st < leader_leo leader /\
    exists slice,
      read_records leader (home_leo st) (max_bytes c) (isolation c) = Ok slice /\
      o = Done false /\
      w = [ASend (FilePartitionSync ("leader: " ++ leader_id c)%string
             {| sync_leo := leader_leo leader; sync_hw := leader_hw leader;
                sync_records := match file_slice slice with
                                | Some fs => RecordsSlice fs
                                | None => RecordsEmpty
                                end |})])).
Proof.
  unfold pre_select, get_home_leo, gets.
  rewrite (bind_done _ _ st (home_leo st) st []) by reflexivity.
  destruct flag; [|cbn; auto].
  destruct (Z.leb_spec 0 (home_leo st)) as [Hpos|Hneg]; cbn [andb]; [|cbn; auto].
  unfold update_home, generate_home_sync, ret, fail, emit, bind.
  destruct (Z.eqb_spec (leader_leo leader) (home_leo st)) as [Heq|Hne]; [cbn; auto|].
  destruct (Z.ltb_spec (home_leo st) (leader_leo leader)) as [Hlt|Hge]; [|cbn; auto].
  destruct (read_records leader (home_leo st) (max_bytes c) (isolation c)) as [slice|e] eqn:Er;
    [|cbn; auto].
  destruct (file_slice slice) as [fs|] eqn:Ef; cbn; split; auto; right;
    (split; [reflexivity|split; [lia|exists slice; rewrite Ef; auto]]).
Qed.




Lemma update_from_home_equal_leo leader req st :
  req_leo req = leader_leo leader ->
  exists st', update_from_home leader req st = (Done false, st', [])
              /\ (0 <= home_leo st -> home_leo st' = home_leo st).
Proof.
  intros Hreq.
  unfold update_from_home, bind, get_home_leo, gets, update_home_leo, modify, ret; cbn.
  rewrite Hreq, Z.compare_refl.
  destruct (Z.ltb_spec (home_leo st) 0); eexists; (split; [reflexivity|]); cbn; lia.
Qed.

Lemma sync_loop_caught_up c evs st :
  Forall (fun p => snd p = upd (leader_leo (fst p))) evs ->
  exists st', sync_loop c false evs st = (Pending, st', [])
              /\ (0 <= home_leo st -> home_leo st' = home_leo st).
Proof.
  revert st; induction evs as [|[leader ev] rest IH]; intros st Hall.
  - exists st; auto.
  - inversion Hall as [|? ? Hev Hrest]; subst; cbn [fst snd] in Hev; subst ev.
    cbn [sync_loop].
    assert (Hpre : pre_select c false leader st = (Done false, st, [])).
    { unfold pre_select, get_home_leo, gets, ret, bind; reflexivity. }
    rewrite (bind_done _ _ _ _ _ _ Hpre).
    destruct (update_from_home_equal_leo leader {| req_leo := leader_leo leader |} st eq_refl)
      as [st1 [Hupd Hkeep]].
    unfold upd; rewrite (bind_done _ _ _ _ _ _ Hupd).
    unfold increase_conn_count, modify, bind at 1.
    destruct (IH (m_incr_conn st1) Hrest) as [st2 [Hrun Hkeep2]].
    rewrite Hrun; exists st2; split; [reflexivity|].
    intros Hpos; specialize (Hkeep Hpos); rewrite Hkeep2; cbn; lia.
Qed.

(** A connection on which home always reports the leader's current [leo]
    carries nothing but the handshake, and a [home_leo] already known is
    left as it was (the equal case does not store the report). *)
Theorem caught_up_connection_sends_only_handshake (c : Controller) (home : Home)
  (sock : FluvioSocket * bool) (evs : list (LeaderState * Event)) (st : MirrorControllerMetrics)
  (Hcaught : Forall (fun p => snd p = upd (leader_leo (fst p))) evs) :
  exists st',
    sync_mirror_loop c home sock evs st
      = (Pending, st', [ASend (StartMirrorRequest (remote_id home) (leader_id c))])
    /\ (0 <= home_leo st -> home_leo st' = home_leo st).
Proof.
  destruct (sync_loop_caught_up c evs st Hcaught) as [st' [Hrun Hkeep]].
  exists st'; split; [|exact Hkeep].
  unfold sync_mirror_loop, send_initial_request, emit, bind; rewrite Hrun; reflexivity.
Qed.

Lemma caught_up_connection_sends_only_handshake_witness :
  exists st',
    sync_mirror_loop ctrl0 edge_home (1, false) [(leader_at 5, upd 5); (leader_at 6, upd 6)]
      (with_home_leo 3)
      = (Pending, st', [ASend (StartMirrorRequest "edge1"%string "temp-0"%string)])
    /\ (0 <= home_leo (with_home_leo 3) -> home_leo st' = home_leo (with_home_leo 3)).
Proof.
  apply caught_up_connection_sends_only_handshake.
  repeat constructor.
Defined.

(** *** [connect_failure] counts the backoffs *)

Lemma count_backoffs_app w1 w2 :
  count_backoffs (w1 ++ w2) = (count_backoffs w1 + count_backoffs w2)%nat.
Proof. induction w1 as [|[] w1 IH]; cbn; auto. Qed.

Lemma counts_bind {A B} (m : ctl A) (k : A -> ctl B) :
  counts_failures m -> (forall a, counts_failures (k a)) -> counts_failures (bind m k).
Proof.
  intros Hm Hk st; unfold bind.
  specialize (Hm st); destruct (m st) as [[o st1] w1]; cbn [fst snd] in Hm.
  destruct o as [a| |]; cbn [fst snd]; try exact Hm.
  specialize (Hk a st1); destruct (k a st1) as [[o2 st2] w2]; cbn [fst snd] in *.
  rewrite Hk, Hm, count_backoffs_app, Nat.add_comm, Nat.iter_add; reflexivity.
Qed.

Lemma counts_ret {A} (a : A) : counts_failures (ret a).
Proof. intros st; reflexivity. Qed.

Lemma counts_fail {A} (e : string) : counts_failures (@fail A e).
Proof. intros st; reflexivity. Qed.

Lemma counts_pending {A} : counts_failures (@pending A).
Proof. intros st; reflexivity. Qed.

Lemma counts_gets {A} (f : MirrorControllerMetrics -> A) : counts_failures (gets f).
Proof. intros st; reflexivity. Qed.

Lemma counts_emit a : a <> ABackoff -> counts_failures (emit a).
Proof. intros Ha st; destruct a; cbn; [reflexivity|reflexivity|congruence|reflexivity]. Qed.

Lemma counts_modify f :
  (forall m, connect_failure (f m) = connect_failure m) -> counts_failures (modify f).
Proof. intros Hf st; apply Hf. Qed.

Lemma counts_try {A} (m : ctl A) : counts_failures m -> counts_failures (try_ctl m).
Proof.
  intros Hm st; specialize (Hm st); unfold try_ctl.
  destruct (m st) as [[[a|e|] st1] w1]; exact Hm.
Qed.

Lemma counts_backoff_and_wait : counts_failures backoff_and_wait.
Proof. intros st; reflexivity. Qed.

Create HintDb failure_count.
#[local] Hint Resolve counts_bind counts_ret counts_fail counts_pending counts_gets
  counts_emit counts_modify counts_try counts_backoff_and_wait : failure_count.
#[local] Hint Extern 1 (_ <> ABackoff) => discriminate : failure_count.
#[local] Hint Extern 1 (forall m, connect_failure _ = connect_failure m) =>
  intros; reflexivity : failure_count.

Ltac counts := unfold get_home_leo, update_home_leo, increase_loop_count,
  increase_conn_count, increase_conn_failure in *; auto 20 with failure_count.

Lemma counts_update_from_home leader req : counts_failures (update_from_home leader req).
Proof.
  unfold update_from_home; apply counts_bind; [counts|]; intros old.
  apply counts_bind; [destruct (old <? 0); counts|]; intros _.
  destruct (_ ?= _); counts.
Qed.

Lemma counts_generate_home_sync c leader h : counts_failures (generate_home_sync c leader h).
Proof.
  unfold generate_home_sync.
  destruct (_ =? _); [counts|]; destruct (_ <? _); [|counts].
  destruct (read_records _ _ _ _) as [slice|e]; [destruct (file_slice slice)|]; counts.
Qed.

Lemma counts_update_home c leader h : counts_failures (update_home c leader h).
Proof.
  unfold update_home; apply counts_bind; [apply counts_generate_home_sync|].
  intros [req|]; counts.
Qed.

Lemma counts_pre_select c flag leader : counts_failures (pre_select c flag leader).
Proof.
  unfold pre_select; apply counts_bind; [counts|]; intros h.
  destruct (_ && _); [apply counts_bind; [apply counts_update_home|]|]; counts.
Qed.

Lemma counts_sync_loop c flag evs : counts_failures (sync_loop c flag evs).
Proof.
  revert flag; induction evs as [|[leader ev] rest IH]; intros flag; cbn [sync_loop]; [counts|].
  apply counts_bind; [apply counts_pre_select|]; intros f.
  destruct ev as [|[[[req]|e]|]]; [counts| |counts|counts].
  apply counts_bind; [apply counts_update_from_home|]; intros b; counts.
Qed.

Lemma counts_create_socket_to_home c attempts : counts_failures (create_socket_to_home c attempts).
Proof.
  induction attempts as [|[sock|e] rest IH]; cbn [create_socket_to_home]; counts.
Qed.

Lemma counts_dispatch_rounds c rounds : counts_failures (dispatch_rounds c rounds).
Proof.
  induction rounds as [|r rounds IH]; cbn [dispatch_rounds]; [counts|].
  destruct (find_home_cluster c (round_store r)) as [home|]; [|counts].
  apply counts_bind; [counts|]; intros _.
  apply counts_bind; [apply counts_create_socket_to_home|]; intros sock.
  apply counts_bind.
  - apply counts_try; unfold sync_mirror_loop, send_initial_request.
    apply counts_bind; [counts|]; intros _; apply counts_sync_loop.
  - intros res; apply counts_bind; [destruct res; counts|]; intros _; exact IH.
Qed.

Lemma iter_u64_incr n x :
  0 <= x < 2 ^ 64 -> Nat.iter n u64_incr x = (x + Z.of_nat n) mod 2 ^ 64.
Proof.
  intros Hx; induction n as [|n IH].
  - rewrite Z.add_0_r, Z.mod_small; [reflexivity|exact Hx].
  - rewrite Nat.iter_succ, IH; unfold u64_incr.
    rewrite Zplus_mod_idemp_l; f_equal; lia.
Qed.

(** Over a whole supervisor run, [connect_failure] grows by exactly the
    number of backoffs (connect failures, closed streams and failed
    connections), modulo 2^64. *)
Theorem connect_failure_counts_backoffs (c : Controller) (rounds : list Round)
  (st : MirrorControllerMetrics) (Hrange : 0 <= connect_failure st < 2 ^ 64) :
  connect_failure (snd (fst (dispatch_loop c rounds st)))
    = (connect_failure st + Z.of_nat (count_backoffs (snd (dispatch_loop c rounds st)))) mod 2 ^ 64.
Proof.
  rewrite <- iter_u64_incr by exact Hrange.
  unfold dispatch_loop; apply counts_bind; [counts|]; intros _; apply counts_dispatch_rounds.
Qed.

Lemma connect_failure_counts_backoffs_witness :
  connect_failure (snd (fst (dispatch_loop ctrl0 [round_first_update; round_ahead] metrics_new)))
    = (connect_failure metrics_new
       + Z.of_nat (count_backoffs (snd (dispatch_loop ctrl0 [round_first_update; round_ahead] metrics_new))))
      mod 2 ^ 64.
Proof. apply connect_failure_counts_backoffs; cbn; lia. Defined.

(** *** Package index *)

Lemma insert_by_perm {A} (cmp : A -> A -> comparison) x l :
  Permutation (insert_by cmp x l) (x :: l).
Proof.
  induction l as [|y l IH]; cbn; [auto|].
  destruct (cmp x y); auto.
  - eapply perm_trans; [apply perm_skip, IH | apply perm_swap].
  - eapply perm_trans; [apply perm_skip, IH | apply perm_swap].
Qed.



Lemma map_version_insert {V T} `{OrdB V} (x : Release V T) l :
  map version (insert_by release_cmp x l) = insert_by cmp_b (version x) (map version l).
Proof.
  induction l as [|y l IH]; cbn; [reflexivity|].
  unfold release_cmp in *; destruct (cmp_b (version x) (version y)); cbn; rewrite ?IH; reflexivity.
Qed.

Lemma map_version_fold {V T} `{OrdB V} (l acc : list (Release V T)) :
  map version (fold_left (fun acc x => insert_by release_cmp x acc) l acc)
  = fold_left (fun acc x => insert_by cmp_b x acc) (map version l) (map version acc).
Proof.
  revert acc; induction l as [|x l IH]; intros acc; cbn; [reflexivity|].
  rewrite IH, map_version_insert; reflexivity.
Qed.

Lemma find_some_split {A} (f : A -> bool) l r :
  find f l = Some r ->
  exists a b, l = a ++ r :: b /\ f r = true /\ Forall (fun x => f x = false) a.
Proof.
  induction l as [|x l IH]; cbn; [discriminate|].
  destruct (f x) eqn:Ef; intros Hf.
  - injection Hf as <-; exists [], l; auto.
  - destruct (IH Hf) as [a [b [-> [Hr Ha]]]]; exists (x :: a), b; auto.
Qed.

Lemma find_none_forall {A} (f : A -> bool) l :
  find f l = None <-> Forall (fun x => f x = false) l.
Proof.
  induction l as [|x l IH]; cbn; [split; auto|].
  destruct (f x) eqn:Ef; split; intros Hf.
  - discriminate.
  - inversion Hf; congruence.
  - constructor; [exact Ef | apply IH, Hf].
  - inversion Hf; apply IH; assumption.
Qed.

Lemma find_and_add_target_some {V T} `{PartialEqB V} `{PartialEqB T} v t (l rs : list (Release V T)) :
  find_and_add_target v t l = Some rs ->
  exists pre r0 post, l = pre ++ r0 :: post /\ rs = pre ++ add_target r0 t :: post
                      /\ eq_b (version r0) v = true.
Proof.
  revert rs; induction l as [|r l IH]; intros rs; cbn; [discriminate|].
  destruct (eq_b (version r) v) eqn:Ev; intros Hf.
  - injection Hf as <-; exists [], r, l; auto.
  - destruct (find_and_add_target v t l) as [rs'|] eqn:E; cbn in Hf; [|discriminate].
    injection Hf as <-.
    destruct (IH rs' eq_refl) as [pre [r0 [post [-> [-> Hr0]]]]].
    exists (r :: pre), r0, post; auto.
Qed.

Lemma find_and_add_target_none {V T} `{PartialEqB V} `{PartialEqB T} v t (l : list (Release V T)) :
  find_and_add_target v t l = None -> Forall (fun r => eq_b (version r) v = false) l.
Proof.
  induction l as [|r l IH]; cbn; [auto|].
  destruct (eq_b (version r) v) eqn:Ev; [discriminate|].
  destruct (find_and_add_target v t l); cbn; [discriminate|]; auto.
Qed.

Lemma strongly_sorted_app {A} (R : A -> A -> Prop) a b :
  StronglySorted R (a ++ b) -> forall y z, In y a -> In z b -> R y z.
Proof.
  induction a as [|x a IH]; cbn; [tauto|].
  intros Hs y z [<-|Hy] Hz; apply StronglySorted_inv in Hs as [Hs Hf].
  - rewrite Forall_forall in Hf; apply Hf, in_app_iff; auto.
  - exact (IH Hs y z Hy Hz).
Qed.

Section PackageIndexProofs.

Context {V T : Type} `{PartialEqB V} `{OrdB V} `{PartialEqB T}.

Hypothesis version_eq_spec : forall a b : V, eq_b a b = true <-> a = b.
Hypothesis target_eq_spec : forall a b : T, eq_b a b = true <-> a = b.
Hypothesis cmp_eq_spec : forall a b : V, cmp_b a b = Eq <-> a = b.
Hypothesis cmp_antisym : forall a b : V, cmp_b b a = CompOpp (cmp_b a b).
Hypothesis cmp_lt_trans : forall a b c : V, cmp_b a b = Lt -> cmp_b b c = Lt -> cmp_b a c = Lt.

Lemma existsb_eq_in (t : T) l : existsb (fun x => eq_b x t) l = true <-> In t l.
Proof.
  rewrite existsb_exists; split.
  - intros [x [Hin Heq]]; apply target_eq_spec in Heq; subst; exact Hin.
  - intros Hin; exists t; split; [exact Hin | apply target_eq_spec; reflexivity].
Qed.

Lemma add_target_in (r : Release V T) t tg :
  In tg (targets (add_target r t)) <-> In tg (targets r) \/ tg = t.
Proof.
  unfold add_target, target_exists.
  destruct (existsb (fun it => eq_b it t) (targets r)) eqn:E; cbn.
  - apply existsb_eq_in in E; split; [auto|intros [Hin| ->]; auto].
  - rewrite in_app_iff; cbn; intuition.
Qed.

Lemma add_target_version (r : Release V T) t : version (add_target r t) = version r.
Proof. unfold add_target; destruct (negb _); reflexivity. Qed.

Lemma insert_at_end (x : V) acc :
  (forall y, In y acc -> cmp_b x y <> Lt) -> insert_by cmp_b x acc = acc ++ [x].
Proof.
  induction acc as [|y acc IH]; intros Hall; cbn; [reflexivity|].
  destruct (cmp_b x y) eqn:E.
  - rewrite IH; auto; intros z Hz; apply Hall; right; exact Hz.
  - exfalso; apply (Hall y); [left; reflexivity | exact E].
  - rewrite IH; auto; intros z Hz; apply Hall; right; exact Hz.
Qed.

Lemma fold_sorted_id (l acc : list V) :
  StronglySorted version_lt (acc ++ l) ->
  fold_left (fun acc x => insert_by cmp_b x acc) l acc = acc ++ l.
Proof.
  revert acc; induction l as [|x l IH]; intros acc Hs; cbn; [rewrite app_nil_r; reflexivity|].
  rewrite insert_at_end.
  - rewrite IH; [rewrite <- app_assoc; reflexivity|]. rewrite <- app_assoc; exact Hs.
  - intros y Hy; pose proof (strongly_sorted_app _ _ _ Hs y x Hy (or_introl eq_refl)) as Hlt.
    unfold version_lt in Hlt; rewrite cmp_antisym, Hlt; discriminate.
Qed.

Lemma insert_sorted (x : V) l :
  StronglySorted version_lt l -> ~ In x l -> StronglySorted version_lt (insert_by cmp_b x l).
Proof.
  induction l as [|y l IH]; intros Hs Hnin; cbn; [repeat constructor|].
  apply StronglySorted_inv in Hs as [Hs Hf]; rewrite Forall_forall in Hf.
  destruct (cmp_b x y) eqn:E.
  - apply cmp_eq_spec in E; subst; exfalso; apply Hnin; left; reflexivity.
  - constructor; [constructor; [exact Hs|apply Forall_forall; exact Hf]|].
    constructor; [exact E|]; apply Forall_forall; intros z Hz.
    exact (cmp_lt_trans _ _ _ E (Hf z Hz)).
  - constructor; [apply IH; [exact Hs|intros Hin; apply Hnin; right; exact Hin]|].
    apply Forall_forall; intros z Hz.
    apply (Permutation_in _ (insert_by_perm cmp_b x l)) in Hz as [<-|Hz].
    + unfold version_lt; rewrite cmp_antisym, E; reflexivity.
    + exact (Hf z Hz).
Qed.

(** [add_release] keeps the releases ordered by strictly increasing version
    (hence no two releases share a version). *)
Theorem add_release_keeps_versions_strictly_sorted (p : Package V T) (v : V) (t : T)
  (Hsorted : StronglySorted version_lt (map version (releases p))) :
  match add_release p v t with
  | IOk p' => StronglySorted version_lt (map version (releases p'))
  | IErr _ => False
  end.
Proof.
  unfold add_release.
  destruct (find_and_add_target v t (releases p)) as [rs|] eqn:E; cbn.
  - apply find_and_add_target_some in E as [pre [r0 [post [Hl [-> _]]]]].
    rewrite Hl in Hsorted; rewrite map_app in *; cbn in *.
    rewrite add_target_version; exact Hsorted.
  - apply find_and_add_target_none in E.
    unfold sort_by; rewrite map_version_fold, map_app, fold_left_app; cbn.
    rewrite (fold_sorted_id (map version (releases p)) []) by exact Hsorted; cbn.
    apply insert_sorted; [exact Hsorted|].
    rewrite in_map_iff; intros [r [Hv Hin]].
    rewrite Forall_forall in E; specialize (E r Hin).
    rewrite Hv in E; assert (Ht : eq_b v v = true) by (apply version_eq_spec; reflexivity).
    congruence.
Qed.


(** [latest_release] fails with [NoReleases] carrying the package id when
    there is no release; when the releases are kept strictly sorted by
    version (as [add_release] does), it returns a release of the package
    whose version is above that of every other release. *)
Theorem latest_release_is_newest (p : Package V T) :
  (releases p = [] -> latest_release p = IErr (NoReleases (package_id p))) /\
  (StronglySorted version_lt (map version (releases p)) -> releases p <> [] ->
   exists r, latest_release p = IOk r /\ In r (releases p) /\
             forall r', In r' (releases p) -> r' = r \/ version_lt (version r') (version r)).
Proof.
  unfold latest_release; split.
  - intros ->; reflexivity.
  - intros Hs Hne.
    destruct (rev (releases p)) as [|r rest] eqn:E.
    + apply (f_equal (@rev _)) in E; rewrite rev_involutive in E; contradiction.
    + exists r; split; [reflexivity|].
      apply (f_equal (@rev _)) in E; rewrite rev_involutive in E; cbn in E.
      rewrite E in *; rewrite map_app in Hs; cbn in Hs.
      split; [rewrite in_app_iff; cbn; auto|].
      intros r' Hin; apply in_app_iff in Hin as [Hin|[<-|[]]]; [|left; reflexivity].
      right; apply (strongly_sorted_app _ _ _ Hs); [apply in_map, Hin|left; reflexivity].
Qed.

(** [latest_release_for_target] returns the last release listing the
    target (no release after it lists it), and fails with [MissingTarget t]
    exactly when no release lists the target. *)
Theorem latest_release_for_target_spec (p : Package V T) (t : T) :
  (forall r, latest_release_for_target p t = IOk r ->
     exists pre post, releases p = pre ++ r :: post /\ In t (targets r)
                      /\ Forall (fun r' => ~ In t (targets r')) post) /\
  (latest_release_for_target p t = IErr (MissingTarget t) <->
   Forall (fun r => ~ In t (targets r)) (releases p)).
Proof.
  unfold latest_release_for_target; split.
  - intros r.
    destruct (find _ (rev (releases p))) as [r0|] eqn:E; [|discriminate].
    intros Hr; injection Hr as <-.
    apply find_some_split in E as [a [b [Hab [Hr Ha]]]].
    apply (f_equal (@rev _)) in Hab; rewrite rev_involutive, rev_app_distr in Hab; cbn in Hab.
    exists (rev b), (rev a); split; [rewrite Hab, <- app_assoc; reflexivity|].
    split; [apply existsb_eq_in, Hr|].
    apply Forall_rev; rewrite Forall_forall in *; intros x Hx Hin.
    specialize (Ha x Hx); apply existsb_eq_in in Hin; congruence.
  - destruct (find _ (rev (releases p))) as [r0|] eqn:E; split; intros Hf.
    + discriminate.
    + apply find_some_split in E as [a [b [Hab [Hr _]]]].
      apply existsb_eq_in in Hr; rewrite Forall_forall in Hf.
      exfalso; apply (Hf r0); [apply in_rev; rewrite Hab; apply in_app_iff; cbn; auto | exact Hr].
    + clear Hf.
      apply find_none_forall in E; rewrite Forall_forall in *; intros x Hx Hin.
      apply in_rev in Hx; specialize (E x Hx); apply existsb_eq_in in Hin; congruence.
    + reflexivity.
Qed.

(** [add_target] keeps a release's targets free of duplicates, makes the
    target present, and leaves the version unchanged. *)
Theorem add_target_no_duplicates (r : Release V T) (t : T)
  (Hnodup : NoDup (targets r)) :
  NoDup (targets (add_target r t)) /\ In t (targets (add_target r t))
  /\ version (add_target r t) = version r.
Proof.
  split; [|split; [apply add_target_in; auto | apply add_target_version]].
  unfold add_target, target_exists.
  destruct (existsb (fun it => eq_b it t) (targets r)) eqn:E; cbn; [exact Hnodup|].
  apply NoDup_app; [exact Hnodup | repeat constructor; auto|].
  intros x Hx [<-|[]]; apply existsb_eq_in in Hx; congruence.
Qed.

End PackageIndexProofs.

Lemma nat_eq_b_spec : forall a b : nat, eq_b a b = true <-> a = b.
Proof. exact Nat.eqb_eq. Qed.

Lemma nat_cmp_eq_spec : forall a b : nat, cmp_b a b = Eq <-> a = b.
Proof. exact Nat.compare_eq_iff. Qed.

Lemma nat_cmp_antisym : forall a b : nat, cmp_b b a = CompOpp (cmp_b a b).
Proof. exact Nat.compare_antisym. Qed.

Lemma nat_cmp_lt_trans : forall a b c : nat, cmp_b a b = Lt -> cmp_b b c = Lt -> cmp_b a c = Lt.
Proof. intros a b c; unfold cmp_b, nat_ord; rewrite !Nat.compare_lt_iff; lia. Qed.

Lemma add_release_keeps_versions_strictly_sorted_witness :
  StronglySorted version_lt (map version (releases pkg0)) /\
  match add_release pkg0 2%nat 1%nat with
  | IOk p' => StronglySorted version_lt (map version (releases p'))
  | IErr _ => False
  end.
Proof.
  assert (Hs : StronglySorted version_lt (map version (releases pkg0))) by (cbn; repeat constructor).
  split; [exact Hs|].
  exact (add_release_keeps_versions_strictly_sorted nat_eq_b_spec nat_cmp_eq_spec
           nat_cmp_antisym nat_cmp_lt_trans pkg0 2%nat 1%nat Hs).
Defined.


Lemma latest_release_is_newest_witness :
  releases pkg_empty = [] /\ latest_release pkg_empty = IErr (NoReleases (package_id pkg_empty)) /\
  StronglySorted version_lt (map version (releases pkg0)) /\ releases pkg0 <> [] /\
  exists r, latest_release pkg0 = IOk r /\ In r (releases pkg0) /\
            forall r', In r' (releases pkg0) -> r' = r \/ version_lt (version r') (version r).
Proof.
  assert (Hs : StronglySorted version_lt (map version (releases pkg0))) by (cbn; repeat constructor).
  assert (Hne : releases pkg0 <> []) by discriminate.
  split; [reflexivity|].
  split; [exact (proj1 (latest_release_is_newest pkg_empty) eq_refl)|].
  split; [exact Hs|]; split; [exact Hne|].
  exact (proj2 (latest_release_is_newest pkg0) Hs Hne).
Defined.

Lemma latest_release_for_target_spec_witness :
  (forall a b : nat, eq_b a b = true <-> a = b) /\
  (forall r, latest_release_for_target pkg0 1%nat = IOk r ->
     exists pre post, releases pkg0 = pre ++ r :: post /\ In 1%nat (targets r)
                      /\ Forall (fun r' => ~ In 1%nat (targets r')) post) /\
  (latest_release_for_target pkg0 1%nat = IErr (MissingTarget 1%nat) <->
   Forall (fun r => ~ In 1%nat (targets r)) (releases pkg0)).
Proof.
  split; [exact nat_eq_b_spec|].
  exact (latest_release_for_target_spec nat_eq_b_spec pkg0 1%nat).
Defined.

Lemma add_target_no_duplicates_witness :
  NoDup (targets release_v3) /\
  NoDup (targets (add_target release_v3 5%nat)) /\ In 5%nat (targets (add_target release_v3 5%nat))
  /\ version (add_target release_v3 5%nat) = version release_v3.
Proof.
  assert (Hnd : NoDup (targets release_v3)) by (cbn; repeat constructor; cbn; lia).
  split; [exact Hnd|].
  exact (add_target_no_duplicates nat_eq_b_spec release_v3 5%nat Hnd).
Defined.
